(** * A C11 [threads.h] shim over pthreads: model and verification

    The header [macos-compat/include/threads.h] forwards the seven C11
    thread operations to the host's pthread primitives.  This file embeds
    the seven [static inline] functions of the header together with a
    reference model of the native primitives they call, and proves the
    properties of the mapping: status translation, the exit-code encoding
    through a pointer-sized value, and the frame conditions on the caller's
    output locations. *)

From Stdlib Require Import ZArith Lia Bool List.
From stdpp Require Import base option gmap.

Local Open Scope Z_scope.

(** ** Machine integers

    [int] is a 32-bit two's complement integer; [intptr_t] and [void *]
    have the platform's pointer width, a parameter of the conversions.  A
    signed value is a [Z] in the signed range of its width, a pointer is
    the unsigned bit pattern of its address. *)

Definition INT_BITS : Z := 32.

Definition INT_MIN : Z := - 2 ^ (INT_BITS - 1).
Definition INT_MAX : Z := 2 ^ (INT_BITS - 1) - 1.

Definition int_range (z : Z) : Prop := INT_MIN <= z <= INT_MAX.

(** Conversion to a signed integer type of [bits] bits: the value modulo
    [2^bits], taken in the signed range. *)
Definition wrap_signed (bits z : Z) : Z :=
  (z + 2 ^ (bits - 1)) mod 2 ^ bits - 2 ^ (bits - 1).

(** Conversion to an unsigned bit pattern of [bits] bits. *)
Definition wrap_unsigned (bits z : Z) : Z := z mod 2 ^ bits.

Section Conversions.

Variable ptr_bits : Z.

(** [(intptr_t)res] for an [int res]. *)
Definition int_to_intptr (i : Z) : Z := wrap_signed ptr_bits i.

(** [(void * )x] for an [intptr_t x]: the same bits, read as an address. *)
Definition intptr_to_voidp (x : Z) : Z := wrap_unsigned ptr_bits x.

(** [(intptr_t)p] for a [void *p]. *)
Definition voidp_to_intptr (p : Z) : Z := wrap_signed ptr_bits p.

(** [(int)x] for an [intptr_t x]. *)
Definition intptr_to_int (x : Z) : Z := wrap_signed INT_BITS x.

(** [(void * )(intptr_t)res], the argument [thrd_exit] hands to
    [pthread_exit]. *)
Definition encode_exit_code (res : Z) : Z :=
  intptr_to_voidp (int_to_intptr res).

(** [(int)(intptr_t)retval], the value [thrd_join] stores through [res]. *)
Definition decode_exit_code (retval : Z) : Z :=
  intptr_to_int (voidp_to_intptr retval).

End Conversions.

(** ** The caller's memory and the host's thread table

    [pthread_t] (and with it [thrd_t], its typedef) is the address of the
    thread's control block, addresses and function pointers are integers.
    All of them are written [Z]; the abbreviations name the C type.  A
    pointer argument that may be null is an [option]. *)

Abbreviation addr := Z (only parsing).
Abbreviation voidp := Z (only parsing).
Abbreviation pthread_t := Z (only parsing).
Abbreviation thrd_t := Z (only parsing).
Abbreviation thrd_start_t := Z (only parsing).

Record timespec := Timespec { tv_sec : Z; tv_nsec : Z }.

(** What a location of the caller's memory holds. *)
Inductive cell :=
| CInt (i : Z)
| CHandle (t : pthread_t)
| CTimespec (ts : timespec).

(** A thread known to the host: still running the start routine it was
    created with (joinable or detached), or terminated with its exit value
    kept for the thread that joins it.  A thread that was joined, or that
    terminated detached, is gone from the table. *)
Inductive thread_state :=
| Running (start_routine : Z) (arg : voidp) (detached : bool)
| Terminated (retval : voidp).

Record world := World {
  heap : gmap Z cell;                 (* the caller's memory *)
  threads : gmap Z thread_state;      (* the host's thread table *)
  create_budget : nat;                (* threads the host can still allocate *)
  self : pthread_t;                   (* the thread that is executing *)
  signal_in : option Z;               (* ns until a signal reaches it, if any *)
  clock : Z                           (* elapsed time in ns *)
}.

Definition set_heap (h : gmap Z cell) (w : world) : world :=
  World h (threads w) (create_budget w) (self w) (signal_in w) (clock w).

Definition set_threads (ts : gmap Z thread_state) (w : world) : world :=
  World (heap w) ts (create_budget w) (self w) (signal_in w) (clock w).

Definition set_create_budget (n : nat) (w : world) : world :=
  World (heap w) (threads w) n (self w) (signal_in w) (clock w).

Definition set_self (t : pthread_t) (w : world) : world :=
  World (heap w) (threads w) (create_budget w) t (signal_in w) (clock w).

Definition set_signal_in (s : option Z) (w : world) : world :=
  World (heap w) (threads w) (create_budget w) (self w) s (clock w).

Definition advance_clock (d : Z) (w : world) : world :=
  World (heap w) (threads w) (create_budget w) (self w) (signal_in w) (clock w + d).

Definition store (l : addr) (c : cell) (w : world) : world :=
  set_heap (<[l := c]> (heap w)) w.

(** ** Calls

    A call made by the executing thread returns a value in a new world,
    ends the thread with an exit value (the non-local exit of
    [pthread_exit]), or leaves the thread suspended: it has not returned in
    this world. *)

Inductive outcome (A : Type) :=
| Returned (a : A) (w : world)
| ThreadExit (retval : voidp) (w : world)
| Blocked.

Arguments Returned {A} a w.
Arguments ThreadExit {A} retval w.
Arguments Blocked {A}.

Definition M (A : Type) : Type := world -> outcome A.

Definition ret {A} (a : A) : M A := fun w => Returned a w.

Definition bind {A B} (c : M A) (k : A -> M B) : M B :=
  fun w =>
    match c w with
    | Returned a w' => k a w'
    | ThreadExit p w' => ThreadExit p w'
    | Blocked => Blocked
    end.

Declare Scope call_scope.
Delimit Scope call_scope with call.
Notation "x <- c ;; k" := (bind c (fun x => k))
  (at level 100, c at next level, right associativity) : call_scope.

(** An [int] used as a condition: true when it is not zero. *)
Definition truthy (c : Z) : bool := negb (c =? 0).

(** C's [c ? a : b]. *)
Definition cond {A} (c : Z) (a b : A) : A := if truthy c then a else b.

(** [*l = c]. *)
Definition write (l : addr) (c : cell) : M unit :=
  fun w => Returned tt (store l c w).

(** ** The native primitives

    The header forwards to [pthread_create], [pthread_join],
    [pthread_detach], [pthread_equal], [pthread_self] and [pthread_exit]
    of <pthread.h> and to [nanosleep] of <time.h>.  The system headers
    declare them and the host implements them; the repository has no code
    of theirs.  Each is given here as a function on the world, after the
    spec's account of the native threading primitive and the host's
    documented results: 0 on success and an error number otherwise for
    the pthread calls, 0 or -1 for [nanosleep]. *)

(** The error numbers of the host. *)
Definition EAGAIN : Z := 35.
Definition EINVAL : Z := 22.
Definition ESRCH : Z := 3.
Definition EDEADLK : Z := 11.

Record pthread_attr_t := { detachstate : bool }.

(** A [NULL] attribute pointer asks for the default attributes: joinable. *)
Definition attr_detached (attr : option pthread_attr_t) : bool :=
  match attr with
  | Some a => detachstate a
  | None => false
  end.

Definition max_handle (ts : gmap Z thread_state) : Z :=
  map_fold (fun t _ acc => Z.max t acc) 0 ts.

(** A handle no thread of the table has. *)
Definition fresh_handle (ts : gmap Z thread_state) : pthread_t :=
  max_handle ts + 1.

(** Modelled from the spec: native-create, [pthread_create], absent from
    the repository.  When the host can allocate no further thread it
    fails with [EAGAIN], and then it has written nothing; otherwise it
    allocates a fresh handle for a thread that will run [start_routine]
    on [arg], with the detach state of the attributes, stores the handle
    at [thread] and returns 0. *)
Definition pthread_create (thread : addr) (attr : option pthread_attr_t)
    (start_routine : Z) (arg : voidp) : M Z :=
  fun w =>
    match create_budget w with
    | O => Returned EAGAIN w
    | S n =>
        let t := fresh_handle (threads w) in
        Returned 0
          (store thread (CHandle t)
             (set_threads
                (<[t := Running start_routine arg (attr_detached attr)]> (threads w))
                (set_create_budget n w)))
    end.

(** Modelled from the spec: native-join, [pthread_join], absent from the
    repository.  It waits for the target to terminate: while a joinable
    target runs, the caller stays suspended.  On a terminated target it
    hands over the exit value, releases the thread and returns 0.  It
    fails on the caller's own handle, on a handle the host does not know
    (never created, joined already, or terminated detached) and on a
    detached thread.  The second component is the content of the slot
    the caller passed for the exit value, after the call: a failed join
    does not write the slot, its content is then indeterminate (written
    0) and the shim does not read it. *)
Definition pthread_join (thread : pthread_t) : M (Z * voidp) :=
  fun w =>
    if decide (thread = self w) then Returned (EDEADLK, 0) w
    else
      match threads w !! thread with
      | None => Returned (ESRCH, 0) w
      | Some (Running _ _ true) => Returned (EINVAL, 0) w
      | Some (Running _ _ false) => Blocked
      | Some (Terminated v) =>
          Returned (0, v) (set_threads (delete thread (threads w)) w)
      end.

(** Modelled from the spec: native-detach, [pthread_detach], absent from
    the repository.  A running joinable thread becomes detached, a
    terminated one is released at once; an unknown or already detached
    handle is an error. *)
Definition pthread_detach (thread : pthread_t) : M Z :=
  fun w =>
    match threads w !! thread with
    | None => Returned ESRCH w
    | Some (Running _ _ true) => Returned EINVAL w
    | Some (Running f a false) =>
        Returned 0 (set_threads (<[thread := Running f a true]> (threads w)) w)
    | Some (Terminated _) =>
        Returned 0 (set_threads (delete thread (threads w)) w)
    end.

(** Modelled from the spec: native-handles-equal, [pthread_equal],
    absent from the repository: not zero when the two handles are the
    same thread's, zero otherwise.  It reads and writes no state. *)
Definition pthread_equal (t1 t2 : pthread_t) : Z :=
  if decide (t1 = t2) then 1 else 0.

(** Modelled from the spec: native-self, [pthread_self], absent from the
    repository: the handle of the thread that makes the call. *)
Definition pthread_self : M pthread_t :=
  fun w => Returned (self w) w.

(** Modelled from the spec: native-exit, [pthread_exit], absent from the
    repository.  It ends the calling thread with the exit value
    [value_ptr] and is declared not to return: no value of its result
    type exists. *)
Definition pthread_exit (value_ptr : voidp) : M Empty_set :=
  fun w => ThreadExit value_ptr w.

Definition NSEC_PER_SEC : Z := 1000000000.

Definition timespec_valid (ts : timespec) : bool :=
  (0 <=? tv_sec ts) && (0 <=? tv_nsec ts) && (tv_nsec ts <? NSEC_PER_SEC).

Definition timespec_ns (ts : timespec) : Z :=
  tv_sec ts * NSEC_PER_SEC + tv_nsec ts.

Definition ns_timespec (n : Z) : timespec :=
  Timespec (n / NSEC_PER_SEC) (n mod NSEC_PER_SEC).

(** A store through a pointer that may be null. *)
Definition store_opt (l : option addr) (c : cell) (w : world) : world :=
  match l with
  | Some a => store a c w
  | None => w
  end.

(** Modelled from the spec: the native sleep, [nanosleep], absent from
    the repository.  A null or invalid duration is refused with -1.  A
    signal that arrives before the duration is over ends the sleep with
    -1, the time that was left stored at [rmtp] when that is not null;
    otherwise the sleep completes and returns 0. *)
Definition nanosleep (rqtp : option timespec) (rmtp : option addr) : M Z :=
  fun w =>
    match rqtp with
    | None => Returned (-1) w
    | Some ts =>
        if negb (timespec_valid ts) then Returned (-1) w
        else
          let d := timespec_ns ts in
          match signal_in w with
          | Some s =>
              if s <? d then
                Returned (-1)
                  (store_opt rmtp (CTimespec (ns_timespec (d - s)))
                     (set_signal_in None (advance_clock s w)))
              else
                Returned 0 (set_signal_in (Some (s - d)) (advance_clock d w))
          | None => Returned 0 (advance_clock d w)
          end
    end.

(** ** The shim: [threads.h] *)

(** [enum { thrd_success = 0, thrd_error = 1, thrd_timedout = 2,
    thrd_busy = 3, thrd_nomem = 4 }] *)
Definition thrd_success : Z := 0.
Definition thrd_error : Z := 1.
Definition thrd_timedout : Z := 2.
Definition thrd_busy : Z := 3.
Definition thrd_nomem : Z := 4.

Definition thrd_statuses : list Z :=
  [thrd_success; thrd_error; thrd_timedout; thrd_busy; thrd_nomem].

(** Membership in the enumeration. *)
Definition is_thrd_status (v : Z) : bool :=
  existsb (Z.eqb v) thrd_statuses.

(** [(void *( * )(void * ))func]: the same code address at another
    function type. *)
Definition cast_start_routine (func : thrd_start_t) : Z := func.

Section Shim.

Local Open Scope call_scope.

(** The pointer width of the platform. *)
Variable ptr_bits : Z.

(** What a call of an [int] function leaves in the bits of the
    pointer-sized return value above the [int]. *)
Variable abi_upper : Z -> Z.

(** The program: the start routine at a code address, if there is one. *)
Variable text : Z -> option (voidp -> M Z).

Definition thrd_create (thr : addr) (func : thrd_start_t) (arg : voidp) : M Z :=
  rc <- pthread_create thr None (cast_start_routine func) arg ;;
  ret (cond rc thrd_error thrd_success).

Definition thrd_join (thr : thrd_t) (res : option addr) : M Z :=
  r <- pthread_join thr ;;
  let retval := snd r in
  if truthy (fst r) then ret thrd_error
  else
    _ <- match res with
         | Some l => write l (CInt (decode_exit_code ptr_bits retval))
         | None => ret tt
         end ;;
    ret thrd_success.

Definition thrd_equal (a b : thrd_t) : M Z :=
  ret (pthread_equal a b).

Definition thrd_current : M thrd_t :=
  pthread_self.

Definition thrd_detach (thr : thrd_t) : M Z :=
  rc <- pthread_detach thr ;;
  ret (cond rc thrd_error thrd_success).

Definition thrd_exit (res : Z) : M unit :=
  _ <- pthread_exit (encode_exit_code ptr_bits res) ;;
  ret tt.

Definition thrd_sleep (dur : option timespec) (rem : option addr) : M Z :=
  nanosleep dur rem.

(** ** Running a created thread

    The host calls the start routine through the pointer [thrd_create]
    cast to [void *( * )(void * )] and reads a pointer-sized return value:
    the routine, returning [int], sets its low [INT_BITS] bits, the bits
    above are whatever the call left there. *)
Definition start_return (r : Z) : voidp :=
  wrap_unsigned ptr_bits (abi_upper r * 2 ^ INT_BITS + wrap_unsigned INT_BITS r).

(** The thread [t] terminates with exit value [p]: a joinable thread
    keeps it for the join, a detached one is reclaimed at once. *)
Definition retire (t : pthread_t) (p : voidp) (w : world) : world :=
  match threads w !! t with
  | Some (Running _ _ false) => set_threads (<[t := Terminated p]> (threads w)) w
  | Some (Running _ _ true) => set_threads (delete t (threads w)) w
  | _ => w
  end.

(** The thread [t] runs its start routine until it terminates, by
    returning from the routine or by a call of [pthread_exit]; then the
    thread that was executing goes on.  [None] when [t] is not a running
    thread of the program or does not get to its end. *)
Definition run_thread (t : pthread_t) (w : world) : option world :=
  match threads w !! t with
  | Some (Running func arg _) =>
      match text func with
      | Some f =>
          match f arg (set_self t w) with
          | Returned r w' => Some (set_self (self w) (retire t (start_return r) w'))
          | ThreadExit p w' => Some (set_self (self w) (retire t p w'))
          | Blocked => None
          end
      | None => None
      end
  | _ => None
  end.

End Shim.

(** Two handles are equal for the shim when [thrd_equal] answers with a
    value that is not zero, in whatever world it is asked. *)
Definition Equal (a b : thrd_t) : Prop :=
  forall w, exists v, thrd_equal a b w = Returned v w /\ v <> 0.

(** ** A 64-bit host and a small program *)

Definition LP64 : Z := 64.

(** The bits a 64-bit return register holds above an [int] result: here
    not the sign extension, to exercise the decoding. *)
Definition upper_junk (r : Z) : Z := 305419896 + r.

(** A start routine that returns its argument's low bits negated, and one
    that leaves through [thrd_exit]. *)
Definition worker_return (arg : voidp) : M Z :=
  ret (- (arg mod 1000)).

Definition worker_exit (arg : voidp) : M Z :=
  bind (thrd_exit LP64 (-2147483648)) (fun _ => ret 0).

Definition demo_text (func : Z) : option (voidp -> M Z) :=
  if func =? 4096 then Some worker_return
  else if func =? 8192 then Some worker_exit
  else None.

(** The main thread, with handle 1, on a host that can allocate four
    threads; the same host with its threads used up; and the first with a
    signal due in 5 ns. *)
Definition w_main : world :=
  World ∅ {[ 1 := Running 0 0 false ]} 4 1 None 0.

Definition w_exhausted : world := set_create_budget 0 w_main.

Definition w_signal : world := set_signal_in (Some 5) w_main.

(** A world with a thread that terminated with exit value 7 and is not
    joined yet, and the address of an [int] of the caller. *)
Definition w_zombie : world :=
  set_threads (<[ 2 := Terminated 7 ]> (threads w_main))
    (store 100 (CInt 0) w_main).

(** The main world after the main thread created a thread, with handle
    2, for the routine at [func] and the argument 5, the handle stored at
    address 200. *)
Definition w_spawned (func : Z) : world :=
  store 200 (CHandle 2)
    (set_threads (<[ 2 := Running func 5 false ]> (threads w_main))
       (set_create_budget 3 w_main)).

(** A world with a terminated, unjoined thread whose exit value has all
    64 bits set, and one whose exit value has bit 32 set above the value
    5. *)
Definition w_zombie_ones : world :=
  set_threads (<[ 2 := Terminated (2 ^ 64 - 1) ]> (threads w_main))
    (store 100 (CInt 0) w_main).

Definition w_zombie_high : world :=
  set_threads (<[ 2 := Terminated (2 ^ 32 + 5) ]> (threads w_main))
    (store 100 (CInt 0) w_main).

(** ** Arithmetic of the conversions *)

Lemma wrap_signed_shift (bits z k : Z) :
  wrap_signed bits (z + k * 2 ^ bits) = wrap_signed bits z.
Proof.
  unfold wrap_signed.
  replace (z + k * 2 ^ bits + 2 ^ (bits - 1))
    with (z + 2 ^ (bits - 1) + k * 2 ^ bits) by ring.
  now rewrite Z_mod_plus_full.
Qed.

Lemma wrap_signed_id (bits z : Z) :
  0 < bits -> - 2 ^ (bits - 1) <= z < 2 ^ (bits - 1) ->
  wrap_signed bits z = z.
Proof.
  intros Hb Hz. unfold wrap_signed.
  assert (2 ^ bits = 2 * 2 ^ (bits - 1)) as E.
  { replace bits with (Z.succ (bits - 1)) at 1 by lia.
    rewrite Z.pow_succ_r; lia. }
  rewrite Z.mod_small; lia.
Qed.

Lemma pow2_split (lo hi : Z) :
  0 <= lo <= hi -> 2 ^ hi = 2 ^ (hi - lo) * 2 ^ lo.
Proof.
  intros H. rewrite <- Z.pow_add_r by lia. f_equal. lia.
Qed.

(** Narrowing after a wider signed conversion forgets the wider one. *)
Lemma wrap_signed_narrow (lo hi z : Z) :
  0 <= lo <= hi ->
  wrap_signed lo (wrap_signed hi z) = wrap_signed lo z.
Proof.
  intros H. unfold wrap_signed at 2.
  rewrite Z.mod_eq by (apply Z.pow_nonzero; lia).
  rewrite (pow2_split lo hi H).
  set (q := (z + 2 ^ (hi - 1)) / (2 ^ (hi - lo) * 2 ^ lo)).
  replace (z + 2 ^ (hi - 1) - 2 ^ (hi - lo) * 2 ^ lo * q - 2 ^ (hi - 1))
    with (z + (- (2 ^ (hi - lo) * q)) * 2 ^ lo) by ring.
  apply wrap_signed_shift.
Qed.

(** Narrowing a bit pattern of a wider width keeps the low bits only. *)
Lemma wrap_signed_unsigned (lo hi z : Z) :
  0 <= lo <= hi ->
  wrap_signed lo (wrap_unsigned hi z) = wrap_signed lo z.
Proof.
  intros H. unfold wrap_unsigned.
  rewrite Z.mod_eq by (apply Z.pow_nonzero; lia).
  rewrite (pow2_split lo hi H).
  set (q := z / (2 ^ (hi - lo) * 2 ^ lo)).
  replace (z - 2 ^ (hi - lo) * 2 ^ lo * q)
    with (z + (- (2 ^ (hi - lo) * q)) * 2 ^ lo) by ring.
  apply wrap_signed_shift.
Qed.

Lemma decode_low_bits (ptr_bits p : Z) :
  INT_BITS <= ptr_bits ->
  decode_exit_code ptr_bits p = wrap_signed INT_BITS p.
Proof.
  intros H. unfold decode_exit_code, intptr_to_int, voidp_to_intptr.
  apply wrap_signed_narrow. unfold INT_BITS in *. lia.
Qed.

Lemma decode_encode (ptr_bits code : Z) :
  INT_BITS <= ptr_bits -> int_range code ->
  decode_exit_code ptr_bits (encode_exit_code ptr_bits code) = code.
Proof.
  intros H Hc. rewrite decode_low_bits by exact H.
  unfold encode_exit_code, intptr_to_voidp, int_to_intptr.
  assert (0 <= INT_BITS <= ptr_bits) as H' by (unfold INT_BITS in *; lia).
  rewrite wrap_signed_unsigned, wrap_signed_narrow by exact H'.
  apply wrap_signed_id; [unfold INT_BITS; lia|].
  unfold int_range, INT_MIN, INT_MAX in Hc. lia.
Qed.


(** The width of the pointer matters: through a 16-bit pointer the code
    70000 comes back as 4464. *)
Example decode_encode_narrow :
  decode_exit_code 16 (encode_exit_code 16 70000) = 4464.
Proof. reflexivity. Qed.

(** Only the low [INT_BITS] bits of the exit value reach the caller: two
    exit values that agree on them decode alike. *)
Lemma decode_same_low_bits (ptr_bits p q : Z) :
  INT_BITS <= ptr_bits ->
  (forall i, 0 <= i < INT_BITS -> Z.testbit p i = Z.testbit q i) ->
  decode_exit_code ptr_bits p = decode_exit_code ptr_bits q.
Proof.
  intros H Hbits. rewrite !decode_low_bits by exact H.
  rewrite <- (wrap_signed_unsigned INT_BITS INT_BITS p) by (unfold INT_BITS; lia).
  rewrite <- (wrap_signed_unsigned INT_BITS INT_BITS q) by (unfold INT_BITS; lia).
  f_equal. unfold wrap_unsigned. apply Z.bits_inj'. intros i Hi.
  destruct (Z.ltb_spec i INT_BITS) as [Hlt|Hge].
  - rewrite !Z.mod_pow2_bits_low by exact Hlt. apply Hbits. lia.
  - rewrite !Z.mod_pow2_bits_high; [reflexivity| |]; unfold INT_BITS in *; lia.
Qed.

(** ** The thread table *)

Lemma max_handle_bound (ts : gmap Z thread_state) (t : Z) (s : thread_state) :
  ts !! t = Some s -> t <= max_handle ts.
Proof.
  unfold max_handle. revert t s.
  apply (map_fold_weak_ind
           (fun r (m : gmap Z thread_state) => forall t s, m !! t = Some s -> t <= r)).
  - intros t s H. rewrite lookup_empty in H. discriminate.
  - intros i x m r _ IH t s H.
    destruct (decide (i = t)) as [->|Hne].
    + lia.
    + rewrite lookup_insert_ne in H by exact Hne.
      specialize (IH t s H). lia.
Qed.

Lemma fresh_handle_fresh (ts : gmap Z thread_state) :
  ts !! fresh_handle ts = None.
Proof.
  destruct (ts !! fresh_handle ts) as [s|] eqn:E; [|reflexivity].
  apply max_handle_bound in E. unfold fresh_handle in E. lia.
Qed.

Lemma truthy_nonzero (c : Z) : c <> 0 -> truthy c = true.
Proof.
  intros H. unfold truthy. destruct (Z.eqb_spec c 0); [contradiction|reflexivity].
Qed.

(** The native create, case by case. *)
Lemma pthread_create_cases (thread : addr) (attr : option pthread_attr_t)
    (start arg : Z) (w : world) :
  (create_budget w = O /\
   pthread_create thread attr start arg w = Returned EAGAIN w) \/
  (exists n, create_budget w = S n /\
     pthread_create thread attr start arg w =
       Returned 0
         (store thread (CHandle (fresh_handle (threads w)))
            (set_threads
               (<[fresh_handle (threads w) :=
                    Running start arg (attr_detached attr)]> (threads w))
               (set_create_budget n w)))).
Proof.
  unfold pthread_create. destruct (create_budget w) as [|n].
  - left. split; reflexivity.
  - right. exists n. split; reflexivity.
Qed.

(** The native join, case by case: the caller stays suspended, the join
    fails and changes nothing, or it succeeds on a terminated thread, whose
    exit value it hands over and whose entry it removes. *)
Lemma pthread_join_cases (thread : pthread_t) (w : world) :
  pthread_join thread w = Blocked \/
  (exists e, e <> 0 /\ pthread_join thread w = Returned (e, 0) w) \/
  (exists v, threads w !! thread = Some (Terminated v) /\ thread <> self w /\
     pthread_join thread w =
       Returned (0, v) (set_threads (delete thread (threads w)) w)).
Proof.
  unfold pthread_join. destruct (decide (thread = self w)) as [E|E].
  - right. left. exists EDEADLK. split; [discriminate|reflexivity].
  - destruct (threads w !! thread) as [[f a [|]|v]|].
    + right. left. exists EINVAL. split; [discriminate|reflexivity].
    + left. reflexivity.
    + right. right. exists v. repeat split. exact E.
    + right. left. exists ESRCH. split; [discriminate|reflexivity].
Qed.

Lemma pthread_join_terminated (thread : pthread_t) (v : voidp) (w : world) :
  threads w !! thread = Some (Terminated v) -> thread <> self w ->
  pthread_join thread w =
    Returned (0, v) (set_threads (delete thread (threads w)) w).
Proof.
  intros H Hs. unfold pthread_join.
  destruct (decide (thread = self w)); [contradiction|]. now rewrite H.
Qed.

Section Properties.

Local Open Scope call_scope.

Variable ptr_bits : Z.
Variable abi_upper : Z -> Z.
Variable text : Z -> option (voidp -> M Z).

(** ** Create *)

(** C4: [thrd_create] forwards to [pthread_create] with a null attribute
    pointer (the default attributes) and the start routine and argument it
    was given, in every world.  It returns [thrd_success] exactly when the
    native create returns 0, and then a handle of a live, joinable thread
    that runs the routine on the argument, a handle no earlier thread had,
    has been written into [*thr]; when the native create fails it returns
    [thrd_error]. *)
Theorem thrd_create_forwards (thr : addr) (func : thrd_start_t) (arg : voidp)
    (w : world) :
  exists rc w',
    pthread_create thr None (cast_start_routine func) arg w = Returned rc w' /\
    thrd_create thr func arg w =
      Returned (if rc =? 0 then thrd_success else thrd_error) w' /\
    (thrd_create thr func arg w = Returned thrd_success w' <-> rc = 0) /\
    (rc = 0 ->
     exists t, heap w' !! thr = Some (CHandle t) /\
               threads w' !! t = Some (Running func arg false) /\
               threads w !! t = None) /\
    (rc <> 0 -> thrd_create thr func arg w = Returned thrd_error w').
Proof.
  destruct (pthread_create_cases thr None (cast_start_routine func) arg w)
    as [[_ E]|[n [_ E]]].
  - exists EAGAIN, w. unfold thrd_create, bind. rewrite E.
    repeat split; try reflexivity.
    + intros H. inversion H.
    + intros H. discriminate H.
    + intros H. discriminate H.
  - eexists 0, _. unfold thrd_create, bind. rewrite E.
    repeat split; try reflexivity.
    + intros _. exists (fresh_handle (threads w)). simpl.
      rewrite !lookup_insert_eq. repeat split.
      apply fresh_handle_fresh.
    + intros H. contradiction.
Qed.

(** C5: when [thrd_create] returns [thrd_error], nothing was written to
    [*thr]: the location holds what it held before, and so does the rest
    of the world. *)
Theorem thrd_create_error_frame (thr : addr) (func : thrd_start_t)
    (arg : voidp) (w w' : world) :
  thrd_create thr func arg w = Returned thrd_error w' ->
  heap w' !! thr = heap w !! thr /\ w' = w.
Proof.
  intros H.
  destruct (pthread_create_cases thr None (cast_start_routine func) arg w)
    as [[_ E]|[n [_ E]]];
    unfold thrd_create, bind in H; rewrite E in H; inversion H.
  split; reflexivity.
Qed.

(** ** Join *)

(** C6: whatever the native join returns for a handle, [thrd_join]
    returns [thrd_success] when it is 0 (a clean join), having stored the
    decoded exit value through [res] when [res] is not null; with a null
    [res] the exit value is dropped, the caller's memory is as before and
    the result is [thrd_success] all the same.  When the native join
    fails, [thrd_join] returns [thrd_error]. *)
Theorem thrd_join_status (thr : thrd_t) (res : option addr) (w : world)
    (rc : Z) (retval : voidp) (w1 : world) :
  pthread_join thr w = Returned (rc, retval) w1 ->
  (rc = 0 ->
   thrd_join ptr_bits thr res w =
     Returned thrd_success
       (store_opt res (CInt (decode_exit_code ptr_bits retval)) w1)) /\
  (rc = 0 -> res = None ->
   thrd_join ptr_bits thr res w = Returned thrd_success w1 /\ heap w1 = heap w) /\
  (rc <> 0 -> thrd_join ptr_bits thr res w = Returned thrd_error w1) /\
  (thrd_join ptr_bits thr res w = Returned thrd_success
     (store_opt res (CInt (decode_exit_code ptr_bits retval)) w1) <-> rc = 0).
Proof.
  intros H.
  assert (rc = 0 ->
          thrd_join ptr_bits thr res w =
            Returned thrd_success
              (store_opt res (CInt (decode_exit_code ptr_bits retval)) w1)) as Hok.
  { intros ->. unfold thrd_join, bind. rewrite H. simpl.
    destruct res; reflexivity. }
  assert (rc <> 0 -> thrd_join ptr_bits thr res w = Returned thrd_error w1) as Hko.
  { intros Hrc. unfold thrd_join, bind. rewrite H. simpl.
    now rewrite (truthy_nonzero rc Hrc). }
  repeat split.
  - exact Hok.
  - subst. exact (Hok eq_refl).
  - subst. destruct (pthread_join_cases thr w) as [E|[[e [_ E]]|[v [_ [_ E]]]]];
      rewrite E in H; inversion H; reflexivity.
  - exact Hko.
  - intros E. destruct (Z.eq_dec rc 0) as [|Hrc]; [assumption|].
    rewrite (Hko Hrc) in E. discriminate E.
  - exact Hok.
Qed.

(** C10: when [thrd_join] returns [thrd_error], the location [res] points
    to holds what it held before; the failed join changed nothing in the
    world. *)
Theorem thrd_join_error_frame (thr : thrd_t) (res : option addr)
    (w w' : world) :
  thrd_join ptr_bits thr res w = Returned thrd_error w' ->
  w' = w /\ forall l, res = Some l -> heap w' !! l = heap w !! l.
Proof.
  intros H.
  assert (w' = w) as ->; [|split; reflexivity].
  unfold thrd_join, bind in H.
  destruct (pthread_join_cases thr w) as [E|[[e [He E]]|[v [_ [_ E]]]]];
    rewrite E in H; simpl in H.
  - discriminate H.
  - rewrite (truthy_nonzero e He) in H. now inversion H.
  - destruct res; discriminate H.
Qed.

(** ** Exit values through the join *)

Hypothesis ptr_wide : INT_BITS <= ptr_bits.

(** The value the host reads when a start routine returns [r] decodes to
    [r], whatever the bits above the [int] are. *)
Lemma decode_start_return (r : Z) :
  int_range r ->
  decode_exit_code ptr_bits (start_return ptr_bits abi_upper r) = r.
Proof.
  intros Hr. rewrite decode_low_bits by exact ptr_wide.
  unfold start_return.
  rewrite wrap_signed_unsigned by (unfold INT_BITS in *; lia).
  rewrite Z.add_comm, wrap_signed_shift.
  rewrite wrap_signed_unsigned by (unfold INT_BITS; lia).
  apply wrap_signed_id; [unfold INT_BITS; lia|].
  unfold int_range, INT_MIN, INT_MAX in Hr. lia.
Qed.

(** A joinable thread that terminates leaves its exit value in the
    table. *)
Lemma retire_joinable (t : pthread_t) (p : voidp) (func : Z) (arg : voidp)
    (w : world) :
  threads w !! t = Some (Running func arg false) ->
  threads (retire t p w) !! t = Some (Terminated p).
Proof.
  intros H. unfold retire. rewrite H. simpl. apply lookup_insert_eq.
Qed.

(** Joining a terminated thread: a join that succeeds stores the decoded
    exit value, and the join does succeed when the caller is another
    thread. *)
Lemma thrd_join_terminated (t : pthread_t) (p : voidp) (res : addr)
    (wj : world) :
  threads wj !! t = Some (Terminated p) ->
  (forall w3, thrd_join ptr_bits t (Some res) wj = Returned thrd_success w3 ->
              heap w3 !! res = Some (CInt (decode_exit_code ptr_bits p))) /\
  (self wj <> t ->
   exists w3, thrd_join ptr_bits t (Some res) wj = Returned thrd_success w3).
Proof.
  intros Ht. split.
  - intros w3 H. unfold thrd_join, bind in H.
    destruct (pthread_join_cases t wj) as [E|[[e [He E]]|[v [Hv [_ E]]]]];
      rewrite E in H; simpl in H.
    + discriminate H.
    + rewrite (truthy_nonzero e He) in H. discriminate H.
    + rewrite Ht in Hv. inversion Hv; subst v. inversion H; subst w3.
      simpl. apply lookup_insert_eq.
  - intros Hs. eexists. unfold thrd_join, bind.
    rewrite (pthread_join_terminated t p wj Ht) by congruence.
    reflexivity.
Qed.

(** C1: let [thrd_create] succeed for a start routine [f] of the program
    and an argument, writing the handle [t]; let the new thread be
    scheduled, later on, in a world where it has not run yet, and let
    [f arg] run to completion there and return the [int] [r], the thread
    not having detached itself.  Then the thread terminates, and in every
    later world that still has its entry a [thrd_join] on [t] that returns
    [thrd_success] has stored exactly [r] through [res], for every [r] of
    the [int] range; such a join does succeed when another thread makes
    it. *)
Theorem thrd_create_join_result (thr : addr) (func : thrd_start_t)
    (arg : voidp) (f : voidp -> M Z) (r : Z) (t : pthread_t) (res : addr)
    (w0 w1 wa w_ret : world) :
  text func = Some f ->
  thrd_create thr func arg w0 = Returned thrd_success w1 ->
  heap w1 !! thr = Some (CHandle t) ->
  threads wa !! t = threads w1 !! t ->
  f arg (set_self t wa) = Returned r w_ret ->
  int_range r ->
  threads w_ret !! t = threads wa !! t ->
  exists w2,
    run_thread ptr_bits abi_upper text t wa = Some w2 /\
    forall wj, threads wj !! t = threads w2 !! t ->
      (forall w3, thrd_join ptr_bits t (Some res) wj = Returned thrd_success w3 ->
                  heap w3 !! res = Some (CInt r)) /\
      (self wj <> t ->
       exists w3, thrd_join ptr_bits t (Some res) wj = Returned thrd_success w3).
Proof.
  intros Htext Hcreate Hthr Hsched Hrun Hr Hstill.
  assert (threads w1 !! t = Some (Running func arg false)) as Hentry.
  { destruct (pthread_create_cases thr None (cast_start_routine func) arg w0)
      as [[_ E]|[n [_ E]]];
      unfold thrd_create, bind in Hcreate; rewrite E in Hcreate;
      inversion Hcreate; subst w1.
    simpl in Hthr. rewrite lookup_insert_eq in Hthr. inversion Hthr; subst t.
    simpl. apply lookup_insert_eq. }
  rewrite Hentry in Hsched. rewrite Hsched in Hstill.
  eexists. split.
  - unfold run_thread. rewrite Hsched, Htext, Hrun. reflexivity.
  - intros wj Hj. simpl in Hj.
    rewrite (retire_joinable t _ func arg w_ret Hstill) in Hj.
    destruct (thrd_join_terminated t _ res wj Hj) as [Hv Hs].
    rewrite (decode_start_return r Hr) in Hv. split; assumption.
Qed.

(** C3: the encoding of [thrd_exit] is undone by the decoding of
    [thrd_join] on the whole [int] type, and the value is carried through
    the host: when the start routine of a joinable thread comes to
    a call of [thrd_exit code] (whatever [k] the routine would do after
    it), the thread terminates, and in every later world
    that still has its entry a [thrd_join] that returns [thrd_success]
    has stored exactly [code] through [res]; such a join does succeed
    when another thread makes it. *)
Theorem thrd_exit_join_result (code : Z) (t : pthread_t) (func : Z)
    (arg : voidp) (f : voidp -> M Z) (k : unit -> M Z) (res : addr)
    (wa w_mid : world) :
  int_range code ->
  threads wa !! t = Some (Running func arg false) ->
  text func = Some f ->
  f arg (set_self t wa) = bind (thrd_exit ptr_bits code) k w_mid ->
  threads w_mid !! t = threads wa !! t ->
  decode_exit_code ptr_bits (encode_exit_code ptr_bits code) = code /\
  exists w2,
    run_thread ptr_bits abi_upper text t wa = Some w2 /\
    forall wj, threads wj !! t = threads w2 !! t ->
      (forall w3, thrd_join ptr_bits t (Some res) wj = Returned thrd_success w3 ->
                  heap w3 !! res = Some (CInt code)) /\
      (self wj <> t ->
       exists w3, thrd_join ptr_bits t (Some res) wj = Returned thrd_success w3).
Proof.
  intros Hc Hentry Htext Hrun Hstill.
  pose proof (decode_encode ptr_bits code ptr_wide Hc) as Hcodec.
  split; [exact Hcodec|].
  rewrite Hentry in Hstill.
  eexists. split.
  - unfold run_thread. rewrite Hentry, Htext, Hrun. reflexivity.
  - intros wj Hj. simpl in Hj.
    rewrite (retire_joinable t _ func arg w_mid Hstill) in Hj.
    destruct (thrd_join_terminated t _ res wj Hj) as [Hv Hs].
    rewrite Hcodec in Hv. split; assumption.
Qed.

(** ** Exit *)

(** C9: [thrd_exit] returns to its caller in no world and for no code:
    the call ends the thread with the encoded code as its exit value, and
    nothing the caller would do after the call is run.  The outcome is the
    thread's termination, not a status. *)
Theorem thrd_exit_never_returns (code : Z) (w : world) :
  thrd_exit ptr_bits code w = ThreadExit (encode_exit_code ptr_bits code) w /\
  (forall (u : unit) (w' : world), thrd_exit ptr_bits code w <> Returned u w') /\
  thrd_exit ptr_bits code w <> Blocked /\
  (forall (B : Type) (k : unit -> M B),
     bind (thrd_exit ptr_bits code) k w =
       ThreadExit (encode_exit_code ptr_bits code) w).
Proof.
  assert (thrd_exit ptr_bits code w =
            ThreadExit (encode_exit_code ptr_bits code) w) as E by reflexivity.
  repeat split.
  - intros u w' H. rewrite E in H. discriminate H.
  - intros H. rewrite E in H. discriminate H.
Qed.

(** ** Equal and Current *)

Lemma pthread_equal_nonzero (a b : pthread_t) :
  pthread_equal a b <> 0 <-> a = b.
Proof.
  unfold pthread_equal. destruct (decide (a = b)); split; intros; try easy.
Qed.

Lemma Equal_iff (a b : thrd_t) : Equal a b <-> a = b.
Proof.
  unfold Equal, thrd_equal, ret. split.
  - intros H. destruct (H w_main) as [v [E Hv]].
    inversion E; subst v. now apply pthread_equal_nonzero.
  - intros -> w. eexists. split; [reflexivity|]. now apply pthread_equal_nonzero.
Qed.

(** C7: [thrd_equal] has no effect and reads nothing of the world: asked
    in two worlds it gives the same answer and leaves each world as it
    was.  The comparison it decides is reflexive, symmetric and
    transitive. *)
Theorem thrd_equal_equivalence :
  (forall (a b : thrd_t) (w1 w2 : world),
     exists v, thrd_equal a b w1 = Returned v w1 /\
               thrd_equal a b w2 = Returned v w2) /\
  (forall a : thrd_t, Equal a a) /\
  (forall a b : thrd_t, Equal a b <-> Equal b a) /\
  (forall a b c : thrd_t, Equal a b -> Equal b c -> Equal a c).
Proof.
  repeat split.
  - intros a b w1 w2. exists (pthread_equal a b). split; reflexivity.
  - intros a. now apply Equal_iff.
  - intros H. apply Equal_iff in H. now apply Equal_iff.
  - intros H. apply Equal_iff in H. now apply Equal_iff.
  - intros a b c Hab Hbc. apply Equal_iff in Hab, Hbc. apply Equal_iff. congruence.
Qed.

(** C8: two calls of [thrd_current] made by the same thread, in worlds
    that may differ in everything else, return handles that [thrd_equal]
    finds equal; neither call changes its world. *)
Theorem thrd_current_deterministic (w1 w2 : world) :
  self w1 = self w2 ->
  exists t1 t2,
    thrd_current w1 = Returned t1 w1 /\
    thrd_current w2 = Returned t2 w2 /\
    Equal t1 t2.
Proof.
  intros H. exists (self w1), (self w2). repeat split.
  now apply Equal_iff.
Qed.

(** Called twice in a row and compared, in one piece of code. *)
Lemma thrd_current_twice (w : world) :
  exists v,
    (t1 <- thrd_current ;; t2 <- thrd_current ;; thrd_equal t1 t2) w
      = Returned v w /\ v <> 0.
Proof.
  eexists. split; [reflexivity|]. now apply pthread_equal_nonzero.
Qed.

(** ** The status values *)

(** The native detach, case by case. *)
Lemma pthread_detach_cases (thread : pthread_t) (w : world) :
  exists rc w', pthread_detach thread w = Returned rc w' /\
                (rc = 0 \/ (rc <> 0 /\ w' = w)).
Proof.
  unfold pthread_detach.
  destruct (threads w !! thread) as [[f a [|]|v]|]; eexists _, _;
    (split; [reflexivity|]); auto; right; split; auto; discriminate.
Qed.

(** The native sleep returns 0 or -1: -1 for a null duration, for a
    duration that is not valid and when a signal arrives before the
    duration is over; 0 in every other case, that is when the duration is
    valid and no signal is due before its end. *)
Lemma nanosleep_result (rqtp : option timespec) (rmtp : option addr)
    (w : world) :
  exists v w', nanosleep rqtp rmtp w = Returned v w' /\ (v = 0 \/ v = -1) /\
    (rqtp = None -> v = -1) /\
    (forall ts, rqtp = Some ts -> timespec_valid ts = false -> v = -1) /\
    (forall ts s, rqtp = Some ts -> timespec_valid ts = true ->
                  signal_in w = Some s -> s < timespec_ns ts -> v = -1) /\
    (forall ts, rqtp = Some ts -> timespec_valid ts = true ->
                signal_in w = None -> v = 0) /\
    (forall ts s, rqtp = Some ts -> timespec_valid ts = true ->
                  signal_in w = Some s -> timespec_ns ts <= s -> v = 0).
Proof.
  unfold nanosleep. destruct rqtp as [ts|].
  - destruct (timespec_valid ts) eqn:Hv; simpl.
    + destruct (signal_in w) as [s|] eqn:Hs.
      * destruct (Z.ltb_spec s (timespec_ns ts)); eexists _, _;
          (split; [reflexivity|]); repeat split; auto;
          intros; simplify_eq; try lia; congruence.
      * eexists _, _. split; [reflexivity|]. repeat split; auto;
          intros; simplify_eq; congruence.
    + eexists _, _. split; [reflexivity|]. repeat split; auto;
        intros; simplify_eq; congruence.
  - eexists _, _. split; [reflexivity|]. repeat split; auto;
      intros; simplify_eq.
Qed.

(** C2, as the code has it: [thrd_create] and [thrd_detach] return
    [thrd_success] or [thrd_error], and so does [thrd_join] whenever it
    returns; these are members of the enumeration.  [thrd_sleep] returns
    what [nanosleep] returns: 0, which is [thrd_success], when the sleep
    completes, and -1, which is no member of the enumeration, when a
    signal interrupts it or the duration is null or not valid.  The sleep
    completes, and the result is 0, exactly when the duration is valid
    and no signal is due before its end. *)
Theorem thrd_status_values (thr : addr) (func : thrd_start_t) (arg : voidp)
    (t : thrd_t) (res : option addr) (dur : option timespec)
    (rem : option addr) (w : world) :
  (exists v w', thrd_create thr func arg w = Returned v w' /\
                (v = thrd_success \/ v = thrd_error) /\
                is_thrd_status v = true) /\
  (thrd_join ptr_bits t res w = Blocked \/
   exists v w', thrd_join ptr_bits t res w = Returned v w' /\
                (v = thrd_success \/ v = thrd_error) /\
                is_thrd_status v = true) /\
  (exists v w', thrd_detach t w = Returned v w' /\
                (v = thrd_success \/ v = thrd_error) /\
                is_thrd_status v = true) /\
  (exists v w', thrd_sleep dur rem w = Returned v w' /\
                nanosleep dur rem w = Returned v w' /\
                (v = thrd_success \/ v = -1) /\
                (forall ts s, dur = Some ts -> timespec_valid ts = true ->
                              signal_in w = Some s -> s < timespec_ns ts ->
                              v = -1) /\
                (forall ts, dur = Some ts -> timespec_valid ts = true ->
                            signal_in w = None -> v = thrd_success) /\
                (forall ts s, dur = Some ts -> timespec_valid ts = true ->
                              signal_in w = Some s -> timespec_ns ts <= s ->
                              v = thrd_success) /\
                (dur = None -> v = -1) /\
                (forall ts, dur = Some ts -> timespec_valid ts = false ->
                            v = -1) /\
                (v = thrd_success <->
                 exists ts, dur = Some ts /\ timespec_valid ts = true /\
                            forall s, signal_in w = Some s ->
                                      timespec_ns ts <= s)) /\
  is_thrd_status (-1) = false.
Proof.
  split; [|split; [|split; [|split]]].
  - unfold thrd_create, bind.
    destruct (pthread_create_cases thr None (cast_start_routine func) arg w)
      as [[_ E]|[n [_ E]]]; rewrite E; eexists _, _;
      (split; [reflexivity|]); auto.
  - unfold thrd_join, bind.
    destruct (pthread_join_cases t w) as [E|[[e [He E]]|[v [_ [_ E]]]]];
      rewrite E; simpl.
    + left. reflexivity.
    + right. rewrite (truthy_nonzero e He). eexists _, _.
      split; [reflexivity|]. auto.
    + right. destruct res; eexists _, _; (split; [reflexivity|]); auto.
  - unfold thrd_detach, bind.
    destruct (pthread_detach_cases t w) as (rc & w' & E & _). rewrite E.
    eexists _, _. split; [reflexivity|]. unfold ret, cond.
    destruct (truthy rc); auto.
  - destruct (nanosleep_result dur rem w)
      as (v & w' & E & Hv & Hnull & Hbad & Hsig & Hnone & Hlate).
    exists v, w'. unfold thrd_sleep.
    split; [exact E|]. split; [exact E|]. split; [exact Hv|].
    split; [exact Hsig|]. split; [exact Hnone|]. split; [exact Hlate|].
    split; [exact Hnull|]. split; [exact Hbad|]. split.
    + intros Hz. destruct dur as [ts|].
      * exists ts. split; [reflexivity|].
        destruct (timespec_valid ts) eqn:Hval.
        -- split; [reflexivity|]. intros s Hs.
           destruct (Z.le_gt_cases (timespec_ns ts) s) as [Hle|Hgt];
             [exact Hle|].
           assert (s < timespec_ns ts) as Hlt by lia.
           pose proof (Hsig ts s eq_refl Hval Hs Hlt) as Hm.
           rewrite Hm in Hz. discriminate Hz.
        -- pose proof (Hbad ts eq_refl Hval) as Hm.
           rewrite Hm in Hz. discriminate Hz.
      * rewrite (Hnull eq_refl) in Hz. discriminate Hz.
    + intros (ts & Hd & Hval & Hs).
      destruct (signal_in w) as [s|] eqn:Hsig_in.
      * exact (Hlate ts s Hd Hval eq_refl (Hs s eq_refl)).
      * exact (Hnone ts Hd Hval eq_refl).
  - reflexivity.
Qed.

End Properties.

(** ** The theorems at work on the 64-bit host *)

Lemma LP64_wide : INT_BITS <= LP64.
Proof. unfold INT_BITS, LP64. lia. Qed.

Lemma int_range_small (z : Z) : -2147483648 <= z <= 2147483647 -> int_range z.
Proof. unfold int_range, INT_MIN, INT_MAX, INT_BITS. simpl. lia. Qed.

(** The main thread creates a thread for [worker_return] on 5; the
    thread runs and returns -5; a join that succeeds stores -5. *)
Lemma thrd_create_join_result_witness :
  thrd_create 200 4096 5 w_main = Returned thrd_success (w_spawned 4096) /\
  exists w2,
    run_thread LP64 upper_junk demo_text 2 (w_spawned 4096) = Some w2 /\
    forall wj, threads wj !! 2 = threads w2 !! 2 ->
      (forall w3, thrd_join LP64 2 (Some 100) wj = Returned thrd_success w3 ->
                  heap w3 !! 100 = Some (CInt (-5))) /\
      (self wj <> 2 ->
       exists w3, thrd_join LP64 2 (Some 100) wj = Returned thrd_success w3).
Proof.
  split; [vm_compute; reflexivity|].
  apply (thrd_create_join_result LP64 upper_junk demo_text LP64_wide
           200 4096 5 worker_return (-5) 2 100
           w_main (w_spawned 4096) (w_spawned 4096)
           (set_self 2 (w_spawned 4096))).
  - reflexivity.
  - vm_compute; reflexivity.
  - vm_compute; reflexivity.
  - reflexivity.
  - reflexivity.
  - apply int_range_small. lia.
  - reflexivity.
Defined.

(** A thread whose routine leaves through [thrd_exit] with [INT_MIN]:
    the join stores [INT_MIN]. *)
Lemma thrd_exit_join_result_witness :
  decode_exit_code LP64 (encode_exit_code LP64 (-2147483648)) = -2147483648 /\
  exists w2,
    run_thread LP64 upper_junk demo_text 2 (w_spawned 8192) = Some w2 /\
    forall wj, threads wj !! 2 = threads w2 !! 2 ->
      (forall w3, thrd_join LP64 2 (Some 100) wj = Returned thrd_success w3 ->
                  heap w3 !! 100 = Some (CInt (-2147483648))) /\
      (self wj <> 2 ->
       exists w3, thrd_join LP64 2 (Some 100) wj = Returned thrd_success w3).
Proof.
  apply (thrd_exit_join_result LP64 upper_junk demo_text LP64_wide
           (-2147483648) 2 8192 5 worker_exit (fun _ => ret 0) 100
           (w_spawned 8192) (set_self 2 (w_spawned 8192))).
  - apply int_range_small. lia.
  - vm_compute; reflexivity.
  - reflexivity.
  - reflexivity.
  - reflexivity.
Defined.

(** On the host that has no thread left, the create fails and the world
    is as before. *)
Lemma thrd_create_error_frame_witness :
  thrd_create 200 4096 5 w_exhausted = Returned thrd_error w_exhausted /\
  heap w_exhausted !! 200 = heap w_exhausted !! 200 /\
  w_exhausted = w_exhausted.
Proof.
  split; [vm_compute; reflexivity|].
  apply (thrd_create_error_frame 200 4096 5 w_exhausted w_exhausted).
  vm_compute; reflexivity.
Defined.

(** Joining the terminated thread 2 of [w_zombie], with and without an
    output location. *)
Lemma thrd_join_status_witness :
  thrd_join LP64 2 (Some 100) w_zombie =
    Returned thrd_success
      (store 100 (CInt 7) (set_threads (delete 2 (threads w_zombie)) w_zombie)) /\
  thrd_join LP64 2 None w_zombie =
    Returned thrd_success (set_threads (delete 2 (threads w_zombie)) w_zombie).
Proof.
  split.
  - destruct (thrd_join_status LP64 2 (Some 100) w_zombie 0 7
                (set_threads (delete 2 (threads w_zombie)) w_zombie))
      as (H & _); [vm_compute; reflexivity|].
    exact (H eq_refl).
  - destruct (thrd_join_status LP64 2 None w_zombie 0 7
                (set_threads (delete 2 (threads w_zombie)) w_zombie))
      as (H & _); [vm_compute; reflexivity|].
    exact (H eq_refl).
Defined.

(** Joining a handle the host does not know fails, and the [int] at 100
    is as it was. *)
Lemma thrd_join_error_frame_witness :
  thrd_join LP64 3 (Some 100) w_zombie = Returned thrd_error w_zombie /\
  w_zombie = w_zombie /\
  forall l, Some 100 = Some l -> heap w_zombie !! l = heap w_zombie !! l.
Proof.
  split; [vm_compute; reflexivity|].
  apply (thrd_join_error_frame LP64 3 (Some 100) w_zombie w_zombie).
  vm_compute; reflexivity.
Defined.

(** The main thread asks for its handle in two worlds. *)
Lemma thrd_current_deterministic_witness :
  self w_main = self w_zombie /\
  exists t1 t2,
    thrd_current w_main = Returned t1 w_main /\
    thrd_current w_zombie = Returned t2 w_zombie /\
    Equal t1 t2.
Proof.
  split; [reflexivity|].
  apply (thrd_current_deterministic w_main w_zombie). reflexivity.
Defined.

(** C2, against the claim as the spec has it: a sleep of 100 ns that a
    signal interrupts after 5 ns returns -1, with the 95 ns that are left
    stored, and -1 is none of the five status values. *)
Lemma thrd_sleep_interrupted_not_status :
  exists w',
    thrd_sleep (Some (Timespec 0 100)) (Some 300) w_signal = Returned (-1) w' /\
    heap w' !! 300 = Some (CTimespec (Timespec 0 95)) /\
    is_thrd_status (-1) = false /\
    ~ In (-1) thrd_statuses.
Proof.
  eexists. split; [vm_compute; reflexivity|].
  split; [vm_compute; reflexivity|].
  split; [reflexivity|].
  unfold thrd_statuses, thrd_success, thrd_error, thrd_timedout, thrd_busy,
    thrd_nomem. simpl. intros H. repeat destruct H as [H|H]; try discriminate H.
  exact H.
Qed.

(** ** Further properties of the header's functions *)

Lemma pow2_double (bits : Z) : 0 < bits -> 2 ^ bits = 2 * 2 ^ (bits - 1).
Proof.
  intros H. replace bits with (Z.succ (bits - 1)) at 1 by lia.
  rewrite Z.pow_succ_r; lia.
Qed.

Lemma wrap_signed_range (bits z : Z) :
  0 < bits -> - 2 ^ (bits - 1) <= wrap_signed bits z < 2 ^ (bits - 1).
Proof.
  intros H. unfold wrap_signed.
  pose proof (pow2_double bits H) as E.
  assert (0 < 2 ^ (bits - 1)) as Hp by (apply Z.pow_pos_nonneg; lia).
  pose proof (Z.mod_pos_bound (z + 2 ^ (bits - 1)) (2 ^ bits)). lia.
Qed.

Lemma wrap_signed_mod (bits z : Z) :
  0 < bits -> wrap_signed bits z mod 2 ^ bits = z mod 2 ^ bits.
Proof.
  intros H. unfold wrap_signed.
  assert (2 ^ bits <> 0) as Hnz by (apply Z.pow_nonzero; lia).
  rewrite (Z.mod_eq (z + 2 ^ (bits - 1)) _ Hnz).
  set (q := (z + 2 ^ (bits - 1)) / 2 ^ bits).
  replace (z + 2 ^ (bits - 1) - 2 ^ bits * q - 2 ^ (bits - 1))
    with (z + (- q) * 2 ^ bits) by ring.
  apply Z_mod_plus_full.
Qed.

Lemma wrap_signed_fixed (bits z : Z) :
  0 < bits ->
  (wrap_signed bits z = z <-> - 2 ^ (bits - 1) <= z < 2 ^ (bits - 1)).
Proof.
  intros H. split.
  - intros E. rewrite <- E. now apply wrap_signed_range.
  - now apply wrap_signed_id.
Qed.

Lemma int_fits_pointer (ptr_bits z : Z) :
  INT_BITS <= ptr_bits -> int_range z ->
  - 2 ^ (ptr_bits - 1) <= z < 2 ^ (ptr_bits - 1).
Proof.
  intros H Hz. unfold int_range, INT_MIN, INT_MAX in Hz. unfold INT_BITS in *.
  assert (2 ^ (32 - 1) <= 2 ^ (ptr_bits - 1)) by (apply Z.pow_le_mono_r; lia).
  lia.
Qed.

(** The native detach changes the entry of its thread and nothing else,
    and nothing at all when it fails; it succeeds on a joinable thread
    only, which it marks detached when it runs and releases when it has
    terminated. *)
Lemma pthread_detach_frame (thread : pthread_t) (w : world) :
  exists rc w',
    pthread_detach thread w = Returned rc w' /\
    heap w' = heap w /\ self w' = self w /\
    (forall t, t <> thread -> threads w' !! t = threads w !! t) /\
    (rc <> 0 -> w' = w) /\
    (rc = 0 ->
     (exists f a, threads w !! thread = Some (Running f a false) /\
                  threads w' !! thread = Some (Running f a true)) \/
     (exists v, threads w !! thread = Some (Terminated v) /\
                threads w' !! thread = None)).
Proof.
  unfold pthread_detach.
  destruct (threads w !! thread) as [[f a [|]|v]|] eqn:E; eexists _, _;
    (split; [reflexivity|]); simpl; repeat split; auto;
    try discriminate; try contradiction.
  - intros t Ht. now rewrite lookup_insert_ne.
  - intros _. left. exists f, a. split; [reflexivity|]. apply lookup_insert_eq.
  - intros t Ht. now rewrite lookup_delete_ne.
  - intros _. right. exists v. split; [reflexivity|]. apply lookup_delete_eq.
Qed.

Section Footprints.

Local Open Scope call_scope.

Variable ptr_bits : Z.

(** ** Detach *)

(** X1: [thrd_detach] returns [thrd_success] exactly when the native
    detach returns 0 and [thrd_error] for every other result, whatever the
    error number was.  It writes nothing to the caller's memory, leaves
    every other thread of the host as it was, and after a failure the
    whole world is as before.  After a success the thread is not joinable
    any more: it was running and is now detached, or it had terminated
    and is released. *)
Theorem thrd_detach_forwards (thr : thrd_t) (w : world) :
  exists rc w',
    pthread_detach thr w = Returned rc w' /\
    thrd_detach thr w =
      Returned (if rc =? 0 then thrd_success else thrd_error) w' /\
    (thrd_detach thr w = Returned thrd_success w' <-> rc = 0) /\
    heap w' = heap w /\
    self w' = self w /\
    (forall t, t <> thr -> threads w' !! t = threads w !! t) /\
    (rc <> 0 -> w' = w) /\
    (rc = 0 ->
     (exists f a, threads w !! thr = Some (Running f a false) /\
                  threads w' !! thr = Some (Running f a true)) \/
     (exists v, threads w !! thr = Some (Terminated v) /\
                threads w' !! thr = None)).
Proof.
  destruct (pthread_detach_frame thr w)
    as (rc & w' & E & Hh & Hs & Ht & Hko & Hok).
  exists rc, w'.
  assert (thrd_detach thr w =
            Returned (if rc =? 0 then thrd_success else thrd_error) w') as Ed.
  { unfold thrd_detach, bind. rewrite E. unfold ret, cond, truthy.
    now destruct (rc =? 0). }
  repeat split; auto.
  - rewrite Ed. intros H. destruct (Z.eqb_spec rc 0); [assumption|].
    discriminate H.
  - intros ->. exact Ed.
Qed.

(** ** Join *)

Lemma wrap_signed_same_low (bits x y : Z) :
  0 <= bits -> x mod 2 ^ bits = y mod 2 ^ bits ->
  wrap_signed bits x = wrap_signed bits y.
Proof.
  intros H E.
  rewrite <- (wrap_signed_unsigned bits bits x), <- (wrap_signed_unsigned bits bits y)
    by lia.
  unfold wrap_unsigned. now rewrite E.
Qed.

(** X2: a [thrd_join] on a terminated thread, made by another thread,
    succeeds and stores through [res] the [int] that has the low 32 bits
    of the thread's exit value, whatever that pointer-sized value is: the
    stored value is within the [int] range, agrees with the exit value
    modulo [2^32], and is the only [int] that does.  The bits of the exit
    value above the low 32 do not reach the caller. *)
Theorem thrd_join_low_bits (t : pthread_t) (p : voidp) (res : addr)
    (w : world) :
  INT_BITS <= ptr_bits ->
  threads w !! t = Some (Terminated p) ->
  self w <> t ->
  exists v,
    thrd_join ptr_bits t (Some res) w =
      Returned thrd_success
        (store res (CInt v) (set_threads (delete t (threads w)) w)) /\
    int_range v /\
    v mod 2 ^ INT_BITS = p mod 2 ^ INT_BITS /\
    (forall v', int_range v' -> v' mod 2 ^ INT_BITS = p mod 2 ^ INT_BITS ->
                v' = v).
Proof.
  intros Hw Ht Hs. exists (decode_exit_code ptr_bits p).
  assert (0 < INT_BITS) as Hpos by (unfold INT_BITS; lia).
  split; [|rewrite decode_low_bits by exact Hw; split; [|split]].
  - unfold thrd_join, bind.
    rewrite (pthread_join_terminated t p w Ht) by congruence.
    reflexivity.
  - pose proof (wrap_signed_range INT_BITS p Hpos).
    unfold int_range, INT_MIN, INT_MAX. lia.
  - now apply wrap_signed_mod.
  - intros v' Hv' E.
    rewrite <- (wrap_signed_same_low INT_BITS v' p) by (unfold INT_BITS; lia || exact E).
    symmetry. apply wrap_signed_id; [exact Hpos|].
    unfold int_range, INT_MIN, INT_MAX in Hv'. lia.
Qed.

(** X5: a [thrd_join] that returns changes the caller's memory at no
    location other than the one [res] points to, changes no thread of the
    host other than the one it joins, and leaves the executing thread,
    the host's budget, the pending signal and the clock as they were.
    After [thrd_success] the host does not know the handle any more;
    after [thrd_error] the thread table is as before. *)
Theorem thrd_join_footprint (thr : thrd_t) (res : option addr) (v : Z)
    (w w' : world) :
  thrd_join ptr_bits thr res w = Returned v w' ->
  (forall l, res <> Some l -> heap w' !! l = heap w !! l) /\
  (forall t, t <> thr -> threads w' !! t = threads w !! t) /\
  self w' = self w /\
  create_budget w' = create_budget w /\
  signal_in w' = signal_in w /\
  clock w' = clock w /\
  (v = thrd_success -> threads w' !! thr = None) /\
  (v = thrd_error -> threads w' = threads w).
Proof.
  intros H. unfold thrd_join, bind in H.
  destruct (pthread_join_cases thr w) as [E|[[e [He E]]|[x [_ [_ E]]]]];
    rewrite E in H; simpl in H.
  - discriminate H.
  - rewrite (truthy_nonzero e He) in H. inversion H; subst v w'.
    repeat split; auto. intros D. discriminate D.
  - destruct res as [l0|]; inversion H; subst v w'; simpl;
      repeat split; auto; try (intros D; discriminate D).
    + intros l Hl. rewrite lookup_insert_ne; [reflexivity|congruence].
    + intros t Ht. now rewrite lookup_delete_ne.
    + intros _. apply lookup_delete_eq.
    + intros t Ht. now rewrite lookup_delete_ne.
    + intros _. apply lookup_delete_eq.
Qed.

(** ** Create *)

(** X6: a [thrd_create] changes the caller's memory at no location other
    than [thr], keeps every thread the host knows as it is, and leaves the
    executing thread as it was.  The handle a successful create writes is
    equal, for [thrd_equal], to the handle of no thread the host knew
    before; a failed create leaves the thread table as it was. *)
Theorem thrd_create_footprint (thr : addr) (func : thrd_start_t)
    (arg : voidp) (v : Z) (w w' : world) :
  thrd_create thr func arg w = Returned v w' ->
  (forall l, l <> thr -> heap w' !! l = heap w !! l) /\
  (forall t s, threads w !! t = Some s -> threads w' !! t = Some s) /\
  self w' = self w /\
  (v = thrd_success ->
   exists h, heap w' !! thr = Some (CHandle h) /\
             forall t s, threads w !! t = Some s -> ~ Equal h t) /\
  (v = thrd_error -> threads w' = threads w).
Proof.
  intros H. unfold thrd_create, bind in H.
  destruct (pthread_create_cases thr None (cast_start_routine func) arg w)
    as [[_ E]|[n [_ E]]]; rewrite E in H; inversion H; subst v w'; simpl.
  - repeat split; auto. intros D. discriminate D.
  - assert (forall t s, threads w !! t = Some s -> fresh_handle (threads w) <> t)
      as Hfresh.
    { intros t s Ht Heq. rewrite <- Heq, fresh_handle_fresh in Ht.
      discriminate Ht. }
    repeat split; auto.
    + intros l Hl. now rewrite lookup_insert_ne.
    + intros t s Ht. rewrite lookup_insert_ne; [exact Ht|]. now apply (Hfresh t s).
    + intros _. exists (fresh_handle (threads w)). split.
      * apply lookup_insert_eq.
      * intros t s Ht He. apply Equal_iff in He. now apply (Hfresh t s).
    + intros D. discriminate D.
Qed.

(** ** The encoding of the exit code *)

(** X3: for an [int] code, [thrd_exit] ends the thread with the code's
    sign-extended bit pattern as the exit value: the code itself when it
    is not negative, [2^ptr_bits + code] when it is.  The exit value is a
    pointer-sized bit pattern, and two codes with the same exit value are
    the same code. *)
Theorem thrd_exit_encoding (code : Z) (w : world) :
  INT_BITS <= ptr_bits ->
  int_range code ->
  thrd_exit ptr_bits code w =
    ThreadExit (if code <? 0 then 2 ^ ptr_bits + code else code) w /\
  0 <= encode_exit_code ptr_bits code < 2 ^ ptr_bits /\
  (forall code', int_range code' ->
     encode_exit_code ptr_bits code' = encode_exit_code ptr_bits code ->
     code' = code).
Proof.
  intros Hw Hc.
  assert (0 < ptr_bits) as Hpos by (unfold INT_BITS in Hw; lia).
  pose proof (int_fits_pointer ptr_bits code Hw Hc) as Hfit.
  pose proof (pow2_double ptr_bits Hpos) as E2.
  assert (0 < 2 ^ (ptr_bits - 1)) as Hp by (apply Z.pow_pos_nonneg; lia).
  assert (encode_exit_code ptr_bits code =
            (if code <? 0 then 2 ^ ptr_bits + code else code)) as E.
  { unfold encode_exit_code, intptr_to_voidp, int_to_intptr, wrap_unsigned.
    rewrite (wrap_signed_id ptr_bits code Hpos Hfit).
    destruct (Z.ltb_spec code 0).
    - rewrite <- (Z_mod_plus_full code 1 (2 ^ ptr_bits)).
      rewrite Z.mod_small; lia.
    - rewrite Z.mod_small; lia. }
  split; [|split].
  - rewrite <- E. reflexivity.
  - unfold encode_exit_code, intptr_to_voidp, wrap_unsigned.
    apply Z.mod_pos_bound. lia.
  - intros code' Hc' Heq.
    rewrite <- (decode_encode ptr_bits code' Hw Hc'), Heq.
    now apply decode_encode.
Qed.

(** X4: on a platform whose pointers are not wider than an [int], the
    code that comes back through the exit value is the code converted to
    the pointer's width, so the round trip is exact for the codes within
    the signed range of a pointer and for no other. *)
Theorem exit_code_narrow_pointer (code : Z) :
  0 < ptr_bits <= INT_BITS ->
  decode_exit_code ptr_bits (encode_exit_code ptr_bits code) =
    wrap_signed ptr_bits code /\
  (decode_exit_code ptr_bits (encode_exit_code ptr_bits code) = code <->
   - 2 ^ (ptr_bits - 1) <= code < 2 ^ (ptr_bits - 1)).
Proof.
  intros [Hpos Hle].
  assert (decode_exit_code ptr_bits (encode_exit_code ptr_bits code) =
            wrap_signed ptr_bits code) as E.
  { unfold decode_exit_code, encode_exit_code, intptr_to_int, voidp_to_intptr,
      intptr_to_voidp, int_to_intptr.
    rewrite (wrap_signed_unsigned ptr_bits ptr_bits) by lia.
    rewrite (wrap_signed_narrow ptr_bits ptr_bits) by lia.
    apply wrap_signed_id; [unfold INT_BITS; lia|].
    pose proof (wrap_signed_range ptr_bits code Hpos).
    assert (2 ^ (ptr_bits - 1) <= 2 ^ (INT_BITS - 1))
      by (apply Z.pow_le_mono_r; lia).
    lia. }
  split; [exact E|]. rewrite E. now apply wrap_signed_fixed.
Qed.

End Footprints.

(** ** The further properties at work *)

(** A joined thread that terminated with all 64 bits set in its exit
    value: -1 is stored. *)
Lemma thrd_join_low_bits_witness :
  exists v,
    thrd_join LP64 2 (Some 100) w_zombie_ones =
      Returned thrd_success
        (store 100 (CInt v)
           (set_threads (delete 2 (threads w_zombie_ones)) w_zombie_ones)) /\
    int_range v /\
    v mod 2 ^ INT_BITS = (2 ^ 64 - 1) mod 2 ^ INT_BITS /\
    (forall v', int_range v' ->
                v' mod 2 ^ INT_BITS = (2 ^ 64 - 1) mod 2 ^ INT_BITS -> v' = v).
Proof.
  apply (thrd_join_low_bits LP64 2 (2 ^ 64 - 1) 100 w_zombie_ones).
  - unfold INT_BITS, LP64. lia.
  - vm_compute; reflexivity.
  - vm_compute. discriminate.
Defined.

Lemma thrd_join_footprint_witness :
  thrd_join LP64 2 (Some 100) w_zombie_high =
    Returned thrd_success
      (store 100 (CInt 5)
         (set_threads (delete 2 (threads w_zombie_high)) w_zombie_high)) /\
  threads (store 100 (CInt 5)
             (set_threads (delete 2 (threads w_zombie_high)) w_zombie_high))
    !! 1 = threads w_zombie_high !! 1.
Proof.
  split; [vm_compute; reflexivity|].
  destruct (thrd_join_footprint LP64 2 (Some 100) thrd_success w_zombie_high
              (store 100 (CInt 5)
                 (set_threads (delete 2 (threads w_zombie_high)) w_zombie_high)))
    as (_ & H & _); [vm_compute; reflexivity|].
  apply H. lia.
Defined.

Lemma thrd_create_footprint_witness :
  thrd_create 200 4096 5 w_zombie = Returned thrd_success
    (store 200 (CHandle 3)
       (set_threads (<[ 3 := Running 4096 5 false ]> (threads w_zombie))
          (set_create_budget 3 w_zombie))) /\
  exists h,
    heap (store 200 (CHandle 3)
            (set_threads (<[ 3 := Running 4096 5 false ]> (threads w_zombie))
               (set_create_budget 3 w_zombie))) !! 200 = Some (CHandle h) /\
    forall t s, threads w_zombie !! t = Some s -> ~ Equal h t.
Proof.
  split; [vm_compute; reflexivity|].
  destruct (thrd_create_footprint 200 4096 5 thrd_success w_zombie
              (store 200 (CHandle 3)
                 (set_threads (<[ 3 := Running 4096 5 false ]> (threads w_zombie))
                    (set_create_budget 3 w_zombie))))
    as (_ & _ & _ & H & _); [vm_compute; reflexivity|].
  exact (H eq_refl).
Defined.

Lemma thrd_exit_encoding_witness :
  thrd_exit LP64 (-2) w_main = ThreadExit (2 ^ 64 - 2) w_main /\
  0 <= encode_exit_code LP64 (-2) < 2 ^ LP64.
Proof.
  destruct (thrd_exit_encoding LP64 (-2) w_main) as (H1 & H2 & _).
  - unfold INT_BITS, LP64. lia.
  - apply int_range_small. lia.
  - split; [exact H1|exact H2].
Defined.

Lemma exit_code_narrow_pointer_witness :
  decode_exit_code 16 (encode_exit_code 16 70000) = wrap_signed 16 70000 /\
  (decode_exit_code 16 (encode_exit_code 16 70000) = 70000 <->
   - 2 ^ (16 - 1) <= 70000 < 2 ^ (16 - 1)).
Proof.
  apply (exit_code_narrow_pointer 16 70000). unfold INT_BITS. lia.
Defined.
